(** * Browser page scripts: the comment-length validator and the fade toggle

    A shallow embedding of the page scripts [comment.js] (the keydown
    validator) and of the two variants of the fade script (bare globals and
    [window]-qualified globals), over a small model of the part of the DOM the
    scripts touch: a store of element objects, the scripts' global variables,
    the animation-frame callback list and the uncaught errors reported by the
    event loop. *)

From Stdlib Require Import String Ascii QArith.
From stdpp Require Import base option list gmap strings.

Close Scope Q_scope.
Open Scope string_scope.
Open Scope list_scope.
Open Scope nat_scope.

(** ** JavaScript values, completions and the script monad *)

(** Element objects are referred to by handle: the position of the element in
    document order.  A variable holding [None] holds [undefined]. *)
Abbreviation handle := nat (only parsing).

(** The only exception the scripts can raise: a property read, a property
    write or a method call on [null] or [undefined]. *)
Inductive js_error := TypeError.

(** The function objects of the three scripts.  The two [_frame] functions of
    each fade script are the anonymous functions handed to
    [requestAnimationFrame]. *)
Inductive function :=
| fn_lengthCheck
| fn_fade_in
| fn_fade_out
| fn_fade_in_frame
| fn_fade_out_frame
| fn_window_fade_in
| fn_window_fade_out
| fn_window_fade_in_frame
| fn_window_fade_out_frame.

#[global] Instance function_eq_dec : EqDecision function.
Proof. solve_decision. Defined.

(** An element object.  The inline style is the [style] attribute, as
    [elt.style = s] writes it; [innerHTML] is the element's markup content;
    [listeners] holds the registered (event type, callback) pairs in
    registration order. *)
Record node := Node {
  tagName : string;
  attributes : gmap string string;
  innerHTML : string;
  listeners : list (string * function)
}.

(** The page: the element store, the globals [strong] (comment.js) and [div]
    (both fade scripts: [var div] at top level and [window.div] are the same
    binding), the pending animation-frame callbacks and the uncaught errors
    the event loop has reported. *)
Record page := Page {
  nodes : list node;
  strong : option handle;
  div : option handle;
  frame_callbacks : list function;
  reported : list js_error
}.

Definition with_innerHTML (s : string) (n : node) : node :=
  Node (tagName n) (attributes n) s (listeners n).

Definition with_attribute (name s : string) (n : node) : node :=
  Node (tagName n) (<[name := s]> (attributes n)) (innerHTML n) (listeners n).

Definition with_listeners (ls : list (string * function)) (n : node) : node :=
  Node (tagName n) (attributes n) (innerHTML n) ls.

Definition with_nodes (ns : list node) (p : page) : page :=
  Page ns (strong p) (div p) (frame_callbacks p) (reported p).

Definition with_strong (v : option handle) (p : page) : page :=
  Page (nodes p) v (div p) (frame_callbacks p) (reported p).

Definition with_div (v : option handle) (p : page) : page :=
  Page (nodes p) (strong p) v (frame_callbacks p) (reported p).

Definition with_frame_callbacks (cbs : list function) (p : page) : page :=
  Page (nodes p) (strong p) (div p) cbs (reported p).

Definition with_reported (es : list js_error) (p : page) : page :=
  Page (nodes p) (strong p) (div p) (frame_callbacks p) es.

(** How a piece of script ends: normally with a value, or abruptly with a
    thrown error. *)
Inductive completion (A : Type) :=
| Normal (a : A)
| Throw (e : js_error).
Arguments Normal {A} a.
Arguments Throw {A} e.

(** Script code: a page transformer that also yields a completion.  A throw
    keeps the page as it was at the throwing statement. *)
Definition js (A : Type) : Type := page → completion A * page.

#[global] Instance js_ret : MRet js := λ A a p, (Normal a, p).

#[global] Instance js_bind : MBind js := λ A B k c p,
  match c p with
  | (Normal a, p') => k a p'
  | (Throw e, p') => (Throw e, p')
  end.

Definition throw {A : Type} (e : js_error) : js A := λ p, (Throw e, p).

Definition read {A : Type} (f : page → A) : js A := λ p, (Normal (f p), p).

Definition update (f : page → page) : js unit := λ p, (Normal (), f p).

(** ** The DOM operations the scripts use *)

(** [document.querySelectorAll(sel)] for a type selector: the handles of the
    elements with that tag name, in document order.  [from] is the handle of
    the first element of [ns]. *)
Fixpoint select_from (from : handle) (sel : string) (ns : list node) : list handle :=
  match ns with
  | [] => []
  | n :: ns' =>
      if decide (tagName n = sel) then from :: select_from (S from) sel ns'
      else select_from (S from) sel ns'
  end.

Definition querySelectorAll (sel : string) : js (list handle) :=
  read (λ p, select_from 0 sel (nodes p)).

(** The value of an element's attribute, [None] when the element has no such
    attribute. *)
Definition attribute_of (p : page) (h : handle) (name : string) : option string :=
  n ← nodes p !! h; attributes n !! name.

(** [this.getAttribute(name)]: the attribute's value, [null] ([None]) when the
    element has no such attribute. *)
Definition getAttribute (this : handle) (name : string) : js (option string) :=
  read (λ p, attribute_of p this name).

(** [value.length]: the number of code units of a string, each character of
    the model's strings standing for one; reading a property of [null]
    throws. *)
Definition length_of (value : option string) : js nat :=
  match value with
  | Some s => mret (String.length s)
  | None => throw TypeError
  end.

(** [target.innerHTML = s]: the element's content becomes [s]; writing a
    property of [undefined] throws. *)
Definition set_innerHTML (target : option handle) (s : string) : js unit :=
  match target with
  | Some h => update (λ p, with_nodes (alter (with_innerHTML s) h (nodes p)) p)
  | None => throw TypeError
  end.

(** [target.style = s]: the assignment sets the element's inline style text,
    which is its [style] attribute. *)
Definition set_style (target : option handle) (s : string) : js unit :=
  match target with
  | Some h => update (λ p, with_nodes (alter (with_attribute "style" s) h (nodes p)) p)
  | None => throw TypeError
  end.

(** A listener already registered for the same event type is not added a
    second time. *)
Definition add_listener (type : string) (f : function) (n : node) : node :=
  if decide ((type, f) ∈ listeners n) then n
  else with_listeners (listeners n ++ [(type, f)]) n.

(** [target.addEventListener(type, f)]: calling a method of [undefined]
    throws. *)
Definition addEventListener (target : option handle) (type : string) (f : function)
  : js unit :=
  match target with
  | Some h => update (λ p, with_nodes (alter (add_listener type f) h (nodes p)) p)
  | None => throw TypeError
  end.

(** [requestAnimationFrame(f)]: appends [f] to the callbacks of the next
    display refresh. *)
Definition requestAnimationFrame (f : function) : js unit :=
  update (λ p, with_frame_callbacks (frame_callbacks p ++ [f]) p).

(** [for (var i = 0; i < n; i++) body(i)], with [count] the iterations that
    remain and [i] the current index. *)
Fixpoint for_loop (count i : nat) (body : nat → js unit) : js unit :=
  match count with
  | 0 => mret ()
  | S count' => body i ≫= λ _, for_loop count' (S i) body
  end.

(** ** comment.js *)

Definition warning : string := "Comment too long!".

(** [function lengthCheck()], with [this] the element the listener fires on. *)
Definition lengthCheck (this : handle) : js unit :=
  value ← getAttribute this "value";
  len ← length_of value;
  if (10 <? len)%nat then
    target ← read strong;
    set_innerHTML target warning
  else mret ().

(** The top level of comment.js. *)
Definition comment_js : js unit :=
  found ← querySelectorAll "strong";
  update (with_strong (found !! 0)) ≫= λ _,
  inputs ← querySelectorAll "input";
  for_loop (length inputs) 0
    (λ i, addEventListener (inputs !! i) "keydown" fn_lengthCheck).

(** ** The fade script, with bare globals *)

(** A call of one of the two entry points of a fade script. *)
Inductive fade_call := CallFadeIn | CallFadeOut.

(** The opacity a call asks for: 0.999 for in, 0.1 for out. *)
Definition opacity_for (c : fade_call) : Q :=
  match c with
  | CallFadeIn => (999 # 1000)%Q
  | CallFadeOut => (1 # 10)%Q
  end.

Module Fade.

(** [function () { div.style = "opacity:0.999"; }] *)
Definition fade_in_frame : js unit :=
  target ← read div;
  set_style target "opacity:0.999".

(** [function () { div.style = "opacity:0.1"; }] *)
Definition fade_out_frame : js unit :=
  target ← read div;
  set_style target "opacity:0.1".

Definition fade_in : js unit := requestAnimationFrame fn_fade_in_frame.

Definition fade_out : js unit := requestAnimationFrame fn_fade_out_frame.

(** The top level of the script. *)
Definition script : js unit :=
  found ← querySelectorAll "div";
  update (with_div (found !! 0)) ≫= λ _,
  buttons ← querySelectorAll "button";
  addEventListener (buttons !! 0) "click" fn_fade_out ≫= λ _,
  buttons ← querySelectorAll "button";
  addEventListener (buttons !! 1) "click" fn_fade_in.

(** The function a call hands to [requestAnimationFrame]. *)
Definition frame_of (c : fade_call) : function :=
  match c with
  | CallFadeIn => fn_fade_in_frame
  | CallFadeOut => fn_fade_out_frame
  end.

Definition perform (c : fade_call) : js unit :=
  match c with
  | CallFadeIn => fade_in
  | CallFadeOut => fade_out
  end.

(** The calls of [cs] made one after the other, with no display refresh in
    between. *)
Fixpoint perform_all (cs : list fade_call) : js unit :=
  match cs with
  | [] => mret ()
  | c :: cs' => perform c ≫= λ _, perform_all cs'
  end.

End Fade.

(** ** The fade script, with [window]-qualified globals *)

Module WindowFade.

(** [function () { window.div.style = "opacity: 0.999"; }] *)
Definition fade_in_frame : js unit :=
  target ← read div;
  set_style target "opacity: 0.999".

(** [function () { window.div.style = "opacity: 0.1"; }] *)
Definition fade_out_frame : js unit :=
  target ← read div;
  set_style target "opacity: 0.1".

Definition fade_in : js unit := requestAnimationFrame fn_window_fade_in_frame.

Definition fade_out : js unit := requestAnimationFrame fn_window_fade_out_frame.

(** The top level of the script. *)
Definition script : js unit :=
  found ← querySelectorAll "div";
  update (with_div (found !! 0)) ≫= λ _,
  buttons ← querySelectorAll "button";
  addEventListener (buttons !! 0) "click" fn_window_fade_out ≫= λ _,
  buttons ← querySelectorAll "button";
  addEventListener (buttons !! 1) "click" fn_window_fade_in.

(** The function a call hands to [requestAnimationFrame]. *)
Definition frame_of (c : fade_call) : function :=
  match c with
  | CallFadeIn => fn_window_fade_in_frame
  | CallFadeOut => fn_window_fade_out_frame
  end.

Definition perform (c : fade_call) : js unit :=
  match c with
  | CallFadeIn => fade_in
  | CallFadeOut => fade_out
  end.

(** The calls of [cs] made one after the other, with no display refresh in
    between. *)
Fixpoint perform_all (cs : list fade_call) : js unit :=
  match cs with
  | [] => mret ()
  | c :: cs' => perform c ≫= λ _, perform_all cs'
  end.

End WindowFade.

(** ** The event loop *)

(** Calling a function object.  [this] is the element a listener fires on and
    [None] for an animation-frame callback; [lengthCheck] called without an
    element would call the missing method [getAttribute] and throw. *)
Definition call (f : function) (this : option handle) : js unit :=
  match f with
  | fn_lengthCheck =>
      match this with
      | Some h => lengthCheck h
      | None => throw TypeError
      end
  | fn_fade_in => Fade.fade_in
  | fn_fade_out => Fade.fade_out
  | fn_fade_in_frame => Fade.fade_in_frame
  | fn_fade_out_frame => Fade.fade_out_frame
  | fn_window_fade_in => WindowFade.fade_in
  | fn_window_fade_out => WindowFade.fade_out
  | fn_window_fade_in_frame => WindowFade.fade_in_frame
  | fn_window_fade_out_frame => WindowFade.fade_out_frame
  end.

(** An error a callback does not catch is reported and the loop goes on. *)
Definition settle (r : completion unit * page) : page :=
  match r with
  | (Normal _, p) => p
  | (Throw e, p) => with_reported (reported p ++ [e]) p
  end.

Fixpoint run_callbacks (fs : list function) (this : option handle) (p : page) : page :=
  match fs with
  | [] => p
  | f :: fs' => run_callbacks fs' this (settle (call f this p))
  end.

(** The callbacks an element has registered for an event type. *)
Definition listeners_for (type : string) (n : node) : list function :=
  (filter (λ l, l.1 = type) (listeners n)).*2.

(** An event of type [type] fired on the element [target]: its listeners for
    that type run in registration order.  The tree shape of the document is
    not modelled, so the event reaches the target's own listeners only. *)
Definition dispatch (type : string) (target : handle) (p : page) : page :=
  match nodes p !! target with
  | Some n => run_callbacks (listeners_for type n) (Some target) p
  | None => p
  end.

(** One display refresh: the pending callbacks are taken off the page and run
    in the order they were requested. *)
Definition run_animation_frame (p : page) : page :=
  run_callbacks (frame_callbacks p) None (with_frame_callbacks [] p).

(** ** Reading an opacity off an inline style *)

Definition is_space (c : ascii) : bool :=
  bool_decide (c ∈ [" "; "009"; "010"; "012"; "013"]%char).

Fixpoint ltrim (s : string) : string :=
  match s with
  | String c s' => if is_space c then ltrim s' else s
  | EmptyString => s
  end.

Fixpoint rtrim (s : string) : string :=
  match s with
  | String c s' =>
      match rtrim s' with
      | EmptyString => if is_space c then "" else String c ""
      | r => String c r
      end
  | EmptyString => ""
  end.

Definition trim (s : string) : string := rtrim (ltrim s).

(** The pieces of [s] between occurrences of [sep]. *)
Fixpoint split_on (sep : ascii) (s : string) : list string :=
  match s with
  | String c s' =>
      if Ascii.eqb c sep then "" :: split_on sep s'
      else match split_on sep s' with
           | w :: ws => String c w :: ws
           | [] => [String c ""]
           end
  | EmptyString => [""]
  end.

(** [s] cut at the first occurrence of [sep]. *)
Fixpoint cut_at (sep : ascii) (s : string) : option (string * string) :=
  match s with
  | String c s' =>
      if Ascii.eqb c sep then Some ("", s')
      else '(a, b) ← cut_at sep s'; Some (String c a, b)
  | EmptyString => None
  end.

(** The [property: value] declarations of an inline style, in order. *)
Definition declarations (style : string) : list (string * string) :=
  omap (λ d, '(property, value) ← cut_at ":" d; Some (trim property, trim value))
       (split_on ";" style).

Definition digit_of (c : ascii) : option Z :=
  let n := nat_of_ascii c in
  if bool_decide (48 ≤ n ≤ 57)%nat then Some (Z.of_nat (n - 48)) else None.

(** A decimal numeral [ddd] or [ddd.ddd] as a fraction in lowest terms. *)
Fixpoint read_number (s : string) (fraction : bool) (num : Z) (den : positive)
  : option Q :=
  match s with
  | String c s' =>
      match digit_of c with
      | Some d =>
          read_number s' fraction (10 * num + d)
            (if fraction then (10 * den)%positive else den)
      | None =>
          if Ascii.eqb c "." && negb fraction then read_number s' true num den
          else None
      end
  | EmptyString => Some (Qred (num # den))
  end.

Definition number_of (s : string) : option Q :=
  match s with
  | EmptyString => None
  | _ => read_number s false 0 1
  end.

(** Modelled from the spec: the rendering engine's reading of the Toggle
    Target's style as an opacity value (section 4.2: the style mutation sets
    an opacity value, 0.999 for in and 0.1 for out); the engine's style parser
    is not among the page scripts.  The last [opacity] declaration of the
    inline style gives the value. *)
Definition opacity_of_style (style : string) : option Q :=
  last (filter (λ d, d.1 = "opacity") (declarations style)) ≫= λ d, number_of d.2.

(** The inline style and the opacity of the element the global [div] holds. *)
Definition toggle_style (p : page) : option string :=
  h ← div p; attribute_of p h "style".

Definition toggle_opacity (p : page) : option Q :=
  toggle_style p ≫= opacity_of_style.

(** The content of the element the global [strong] holds. *)
Definition feedback_content (p : page) : option string :=
  h ← strong p; n ← nodes p !! h; Some (innerHTML n).

(** ** Documents and keystrokes *)

(** An element of a parsed document, before any script has run. *)
Record element := Element {
  tag : string;
  attrs : gmap string string;
  content : string
}.

(** The element object a parsed element becomes: no listeners yet. *)
Definition node_of (e : element) : node :=
  Node (tag e) (attrs e) (content e) [].

(** The page a document loads into: both globals [undefined], nothing pending
    and nothing reported. *)
Definition load (doc : list element) : page :=
  Page (node_of <$> doc) None None [] [].

(** A keystroke in the element [target]. *)
Definition keydown (target : handle) (p : page) : page :=
  dispatch "keydown" target p.

(** A sequence of keystrokes, oldest first. *)
Definition keystrokes (targets : list handle) (p : page) : page :=
  foldl (λ q t, keydown t q) p targets.

(** [t] is an [input] element whose [value] is longer than the limit. *)
Definition overlong (p : page) (t : handle) : bool :=
  match nodes p !! t with
  | Some n =>
      bool_decide (tagName n = "input")
      && match attributes n !! "value" with
         | Some s => (10 <? String.length s)%nat
         | None => false
         end
  | None => false
  end.

(** The number of elements of a document with the tag [sel]. *)
Definition elements_with (sel : string) (doc : list element) : nat :=
  length (filter (λ e, tag e = sel) doc).

(** The wiring comment.js sets up: the keydown listeners of an element are
    [lengthCheck] alone when it is an [input], and none otherwise. *)
Definition wired (p : page) : Prop :=
  ∀ t n, nodes p !! t = Some n →
    listeners_for "keydown" n
      = if decide (tagName n = "input") then [fn_lengthCheck] else [].

(** [t] is an [input] element with no [value] attribute. *)
Definition valueless (p : page) (t : handle) : bool :=
  match nodes p !! t with
  | Some n =>
      bool_decide (tagName n = "input")
      && bool_decide (attributes n !! "value" = None)
  | None => false
  end.

(** The element object comment.js leaves for a parsed element: an [input]
    carries the keydown listener, any other element carries none. *)
Definition wired_node (e : element) : node :=
  Node (tag e) (attrs e) (content e)
       (if decide (tag e = "input") then [("keydown", fn_lengthCheck)] else []).

(** The style text the callback of a call assigns, in the bare script and in
    the [window]-qualified one. *)
Definition bare_style (c : fade_call) : string :=
  match c with
  | CallFadeIn => "opacity:0.999"
  | CallFadeOut => "opacity:0.1"
  end.



(** ** Sample pages *)

(** A comment form: the feedback element, a field holding eleven characters,
    a field holding five and a field with no [value] attribute. *)
Definition comment_form : list element :=
  [ Element "strong" ∅ "";
    Element "input" {["value" := "helloworld!"]} "";
    Element "input" {["value" := "hello"]} "";
    Element "input" ∅ "" ].

Definition comment_page : page := (comment_js (load comment_form)).2.

(** The comment form after a warning has been shown. *)
Definition warned_page : page := keydown 1 comment_page.

(** A fade page: the toggle target and the two trigger buttons. *)
Definition fade_document : list element :=
  [ Element "div" {["style" := "opacity:0.5"]} "";
    Element "button" ∅ "Fade out";
    Element "button" ∅ "Fade in" ].

Definition fade_page : page := (Fade.script (load fade_document)).2.

(** A page carrying both scripts: the comment form's feedback element and an
    overlong field next to the toggle target and its buttons. *)
Definition full_document : list element :=
  [ Element "strong" ∅ "";
    Element "input" {["value" := "helloworld!"]} "";
    Element "div" {["style" := "opacity:0.5"]} "";
    Element "button" ∅ "Fade out";
    Element "button" ∅ "Fade in" ].

Definition full_page : page :=
  (Fade.script (comment_js (load full_document)).2).2.

(** A comment form without a feedback element. *)
Definition bare_form : list element :=
  [ Element "input" {["value" := "helloworld!"]} "";
    Element "input" ∅ "";
    Element "input" {["value" := "hello"]} "" ].



(** Two trigger buttons and no toggle target. *)
Definition buttons_only : list element :=
  [ Element "button" ∅ "Fade out"; Element "button" ∅ "Fade in" ].

Definition no_target_page : page := (Fade.script (load buttons_only)).2.

(** * Properties *)

(** ** The keydown handler *)

Lemma lengthCheck_unfold (this : handle) (p : page) :
  lengthCheck this p =
    match attribute_of p this "value" with
    | Some s =>
        if (10 <? String.length s)%nat then set_innerHTML (strong p) warning p
        else (Normal (), p)
    | None => (Throw TypeError, p)
    end.
Proof.
  unfold lengthCheck, getAttribute, read, mbind, js_bind.
  destruct (attribute_of p this "value") as [s|]; [|reflexivity].
  unfold length_of, mret, js_ret.
  destruct (10 <? String.length s)%nat; reflexivity.
Qed.

Lemma feedback_content_written (p : page) (h : handle) (s : string) :
  strong p = Some h → h < length (nodes p) →
  feedback_content (set_innerHTML (Some h) s p).2 = Some s.
Proof.
  intros Hs Hlt. unfold feedback_content; cbn. rewrite Hs; cbn.
  rewrite list_lookup_alter_eq.
  destruct (lookup_lt_is_Some_2 (nodes p) h Hlt) as [n ->]. reflexivity.
Qed.

Lemma attribute_of_ext (p q : page) (h : handle) (name : string) :
  attributes <$> nodes q !! h = attributes <$> nodes p !! h →
  attribute_of q h name = attribute_of p h name.
Proof.
  unfold attribute_of.
  destruct (nodes q !! h), (nodes p !! h); intros; simplify_eq/=; congruence.
Qed.

(** The inline style of the toggle target depends on the global [div] and on
    the elements' attributes only. *)
Lemma toggle_style_ext (p q : page) :
  div q = div p →
  (∀ h, attributes <$> nodes q !! h = attributes <$> nodes p !! h) →
  toggle_style q = toggle_style p.
Proof.
  intros Hd Ha. unfold toggle_style. rewrite Hd.
  destruct (div p) as [h|]; [|reflexivity].
  apply attribute_of_ext, Ha.
Qed.

(** What a content write leaves alone. *)
Lemma set_innerHTML_frame (target : option handle) (s : string) (p : page) :
  let q := (set_innerHTML target s p).2 in
  (∀ h, target ≠ Some h → nodes q !! h = nodes p !! h) ∧
  (∀ h, tagName <$> nodes q !! h = tagName <$> nodes p !! h) ∧
  (∀ h, attributes <$> nodes q !! h = attributes <$> nodes p !! h) ∧
  (∀ h, listeners <$> nodes q !! h = listeners <$> nodes p !! h) ∧
  length (nodes q) = length (nodes p) ∧
  strong q = strong p ∧ div q = div p ∧
  frame_callbacks q = frame_callbacks p ∧ reported q = reported p.
Proof.
  destruct target as [t|]; cbn; [|by repeat split].
  assert (∀ (A : Type) (f : node → A),
            (∀ n, f (with_innerHTML s n) = f n) →
            ∀ h, f <$> alter (with_innerHTML s) t (nodes p) !! h = f <$> nodes p !! h)
    as Hfield.
  { intros A f Hf h. destruct (decide (t = h)) as [->|Hne].
    - rewrite list_lookup_alter_eq. destruct (nodes p !! h); cbn; [|done].
      by rewrite Hf.
    - by rewrite list_lookup_alter_ne. }
  repeat split; try (by apply Hfield); try reflexivity.
  - intros h Hne. apply list_lookup_alter_ne. congruence.
  - apply length_alter.
Qed.

(** C1: on a Watched Element whose value is longer than 10, the handler
    completes and leaves the Feedback Element's content equal to the fixed
    warning text "Comment too long!". *)
Theorem lengthCheck_overlong_warns (p : page) (this h : handle) (S : string) :
  attribute_of p this "value" = Some S →
  (10 < String.length S)%nat →
  strong p = Some h → h < length (nodes p) →
  (lengthCheck this p).1 = Normal () ∧
  feedback_content (lengthCheck this p).2 = Some "Comment too long!".
Proof.
  intros Hv Hlen Hs Hlt. rewrite lengthCheck_unfold, Hv.
  destruct (Nat.ltb_spec 10 (String.length S)) as [_|Hle]; [|lia].
  rewrite Hs. split; [reflexivity|].
  by apply feedback_content_written.
Qed.

Lemma lengthCheck_overlong_warns_witness :
  (lengthCheck 1 comment_page).1 = Normal () ∧
  feedback_content (lengthCheck 1 comment_page).2 = Some "Comment too long!".
Proof.
  apply (lengthCheck_overlong_warns comment_page 1 0 "helloworld!");
    [reflexivity | simpl; lia | reflexivity | simpl; lia].
Defined.

(** C2: on a Watched Element whose value has length at most 10, the handler
    completes and leaves the Feedback Element's content as it was, whatever
    it was: a warning written earlier stays. *)
Theorem lengthCheck_short_keeps (p : page) (this : handle) (S F : string) :
  attribute_of p this "value" = Some S →
  (String.length S ≤ 10)%nat →
  feedback_content p = Some F →
  (lengthCheck this p).1 = Normal () ∧
  feedback_content (lengthCheck this p).2 = Some F.
Proof.
  intros Hv Hlen HF. rewrite lengthCheck_unfold, Hv.
  destruct (Nat.ltb_spec 10 (String.length S)) as [Hgt|_]; [lia|].
  by split.
Qed.

Lemma lengthCheck_short_keeps_witness :
  (lengthCheck 2 warned_page).1 = Normal () ∧
  feedback_content (lengthCheck 2 warned_page).2 = Some "Comment too long!".
Proof.
  apply (lengthCheck_short_keeps warned_page 2 "hello" "Comment too long!");
    [reflexivity | simpl; lia | reflexivity].
Defined.

(** C3 fails on the field without a [value] attribute: the handler ends in a
    TypeError rather than completing. *)
Lemma lengthCheck_absent_value_counterexample :
  attribute_of comment_page 3 "value" = None ∧
  (lengthCheck 3 comment_page).1 = Throw TypeError ∧
  (lengthCheck 3 comment_page).1 ≠ Normal ().
Proof. split; [reflexivity | split; [reflexivity | discriminate]]. Qed.

(** C3, amended: when the Watched Element has no [value] attribute,
    [getAttribute] yields [null] and reading its length raises a TypeError;
    the handler writes nothing, the page is left as it was. *)
Theorem lengthCheck_absent_value_throws (p : page) (this : handle) :
  attribute_of p this "value" = None →
  lengthCheck this p = (Throw TypeError, p).
Proof. intros Hv. by rewrite lengthCheck_unfold, Hv. Qed.

Lemma lengthCheck_absent_value_throws_witness :
  lengthCheck 3 comment_page = (Throw TypeError, comment_page).
Proof.
  apply (lengthCheck_absent_value_throws comment_page 3); reflexivity.
Defined.

(** What the handler leaves alone, however it ends. *)
Lemma lengthCheck_frame_nodes (this : handle) (p : page) :
  let q := (lengthCheck this p).2 in
  (∀ h, strong p ≠ Some h → nodes q !! h = nodes p !! h) ∧
  (∀ h, tagName <$> nodes q !! h = tagName <$> nodes p !! h) ∧
  (∀ h, attributes <$> nodes q !! h = attributes <$> nodes p !! h) ∧
  (∀ h, listeners <$> nodes q !! h = listeners <$> nodes p !! h) ∧
  length (nodes q) = length (nodes p) ∧
  strong q = strong p ∧ div q = div p ∧
  frame_callbacks q = frame_callbacks p ∧ reported q = reported p.
Proof.
  rewrite lengthCheck_unfold.
  destruct (attribute_of p this "value") as [s|]; [|by repeat split].
  destruct (10 <? String.length s)%nat; [|by repeat split].
  apply set_innerHTML_frame.
Qed.

(** C10: for every value of the Watched Element, the handler mutates at most
    the Feedback Element's content: the Watched Element's value and the Toggle
    Target's opacity are as before, every element other than the Feedback
    Element is as before, and every element keeps its tag, attributes and
    listeners; the globals and the pending frame callbacks are untouched. *)
Theorem lengthCheck_mutates_content_only (p : page) (this : handle) :
  let q := (lengthCheck this p).2 in
  attribute_of q this "value" = attribute_of p this "value" ∧
  toggle_opacity q = toggle_opacity p ∧
  (∀ h, strong p ≠ Some h → nodes q !! h = nodes p !! h) ∧
  (∀ h, tagName <$> nodes q !! h = tagName <$> nodes p !! h) ∧
  (∀ h, attributes <$> nodes q !! h = attributes <$> nodes p !! h) ∧
  (∀ h, listeners <$> nodes q !! h = listeners <$> nodes p !! h) ∧
  strong q = strong p ∧ div q = div p ∧
  frame_callbacks q = frame_callbacks p.
Proof.
  destruct (lengthCheck_frame_nodes this p)
    as (Hother & Htag & Hattr & Hlis & _ & Hs & Hd & Hf & _).
  cbn zeta. repeat split; try done.
  - by apply attribute_of_ext.
  - unfold toggle_opacity. f_equal. by apply toggle_style_ext.
Qed.

Lemma lengthCheck_mutates_content_only_witness :
  let q := (lengthCheck 1 full_page).2 in
  attribute_of q 1 "value" = attribute_of full_page 1 "value" ∧
  toggle_opacity q = toggle_opacity full_page ∧
  (∀ h, strong full_page ≠ Some h → nodes q !! h = nodes full_page !! h) ∧
  (∀ h, tagName <$> nodes q !! h = tagName <$> nodes full_page !! h) ∧
  (∀ h, attributes <$> nodes q !! h = attributes <$> nodes full_page !! h) ∧
  (∀ h, listeners <$> nodes q !! h = listeners <$> nodes full_page !! h) ∧
  strong q = strong full_page ∧ div q = div full_page ∧
  frame_callbacks q = frame_callbacks full_page.
Proof. exact (lengthCheck_mutates_content_only full_page 1). Defined.

(** ** The event loop keeps the globals and the size of the store *)

Lemma set_style_frame (target : option handle) (s : string) (p : page) :
  let q := (set_style target s p).2 in
  length (nodes q) = length (nodes p) ∧ strong q = strong p ∧ div q = div p ∧
  frame_callbacks q = frame_callbacks p ∧ reported q = reported p.
Proof.
  destruct target as [t|]; cbn; [|done].
  by rewrite length_alter.
Qed.

Lemma settle_fields (r : completion unit * page) :
  nodes (settle r) = nodes r.2 ∧ strong (settle r) = strong r.2 ∧
  div (settle r) = div r.2 ∧ frame_callbacks (settle r) = frame_callbacks r.2.
Proof. by destruct r as [[[]|e] p]. Qed.

Lemma call_preserves (f : function) (this : option handle) (p : page) :
  let q := settle (call f this p) in
  length (nodes q) = length (nodes p) ∧ strong q = strong p ∧ div q = div p.
Proof.
  cbn zeta.
  destruct (settle_fields (call f this p)) as (-> & -> & -> & _).
  destruct f; cbn [call]; try done.
  - destruct this as [h|]; [|done].
    by destruct (lengthCheck_frame_nodes h p) as (_ & _ & _ & _ & ? & ? & ? & _).
  - by destruct (set_style_frame (div p) "opacity:0.999" p) as (? & ? & ? & _).
  - by destruct (set_style_frame (div p) "opacity:0.1" p) as (? & ? & ? & _).
  - by destruct (set_style_frame (div p) "opacity: 0.999" p) as (? & ? & ? & _).
  - by destruct (set_style_frame (div p) "opacity: 0.1" p) as (? & ? & ? & _).
Qed.

Lemma run_callbacks_app (fs gs : list function) (this : option handle) (p : page) :
  run_callbacks (fs ++ gs) this p = run_callbacks gs this (run_callbacks fs this p).
Proof. revert p. induction fs as [|f fs IH]; intros p; cbn; [done|apply IH]. Qed.

Lemma run_callbacks_preserves (fs : list function) (this : option handle) (p : page) :
  let q := run_callbacks fs this p in
  length (nodes q) = length (nodes p) ∧ strong q = strong p ∧ div q = div p.
Proof.
  revert p. induction fs as [|f fs IH]; intros p; cbn; [done|].
  destruct (IH (settle (call f this p))) as (-> & -> & ->).
  apply call_preserves.
Qed.

(** ** The fade scripts *)

Lemma toggle_style_written (p : page) (h : handle) (s : string) :
  div p = Some h → h < length (nodes p) →
  toggle_style (settle (set_style (div p) s p)) = Some s.
Proof.
  intros Hd Hlt. rewrite Hd. unfold toggle_style, attribute_of; cbn. rewrite Hd; cbn.
  rewrite list_lookup_alter_eq.
  destruct (lookup_lt_is_Some_2 (nodes p) h Hlt) as [n ->]; cbn.
  apply lookup_insert_eq.
Qed.

Lemma toggle_style_missing (p : page) :
  (∀ h, div p = Some h → length (nodes p) ≤ h) → toggle_style p = None.
Proof.
  intros Hd. unfold toggle_style.
  destruct (div p) as [h|]; [|done].
  unfold attribute_of; cbn.
  by rewrite (lookup_ge_None_2 (nodes p) h (Hd h eq_refl)).
Qed.

(** The style text each frame callback writes. *)
Lemma bare_frame_call (c : fade_call) (p : page) :
  call (Fade.frame_of c) None p =
    set_style (div p) (match c with
                       | CallFadeIn => "opacity:0.999"
                       | CallFadeOut => "opacity:0.1"
                       end) p.
Proof. by destruct c. Qed.

Lemma window_frame_call (c : fade_call) (p : page) :
  call (WindowFade.frame_of c) None p =
    set_style (div p) (match c with
                       | CallFadeIn => "opacity: 0.999"
                       | CallFadeOut => "opacity: 0.1"
                       end) p.
Proof. by destruct c. Qed.

(** The last callback of a display refresh decides the style. *)
Lemma last_frame_wins (fs : list function) (f : function) (s : string)
    (p : page) (h : handle) :
  div p = Some h → h < length (nodes p) →
  (∀ q, call f None q = set_style (div q) s q) →
  toggle_style (run_callbacks (fs ++ [f]) None p) = Some s.
Proof.
  intros Hd Hlt Hf. rewrite run_callbacks_app; cbn. rewrite Hf.
  destruct (run_callbacks_preserves fs None p) as (Hlen & _ & Hdiv).
  apply (toggle_style_written _ h); [congruence | lia].
Qed.

Lemma with_frame_callbacks_id (p : page) :
  with_frame_callbacks (frame_callbacks p) p = p.
Proof. by destruct p. Qed.

Lemma bare_perform_all (cs : list fade_call) (p : page) :
  Fade.perform_all cs p =
    (Normal (), with_frame_callbacks (frame_callbacks p ++ (Fade.frame_of <$> cs)) p).
Proof.
  revert p. induction cs as [|c cs IH]; intros p; cbn.
  - by rewrite app_nil_r, with_frame_callbacks_id.
  - unfold mbind, js_bind.
    replace (Fade.perform c p)
      with (Normal (), with_frame_callbacks (frame_callbacks p ++ [Fade.frame_of c]) p)
      by (by destruct c).
    rewrite IH; cbn. by rewrite <- app_assoc.
Qed.

Lemma window_perform_all (cs : list fade_call) (p : page) :
  WindowFade.perform_all cs p =
    (Normal (),
     with_frame_callbacks (frame_callbacks p ++ (WindowFade.frame_of <$> cs)) p).
Proof.
  revert p. induction cs as [|c cs IH]; intros p; cbn.
  - by rewrite app_nil_r, with_frame_callbacks_id.
  - unfold mbind, js_bind.
    replace (WindowFade.perform c p)
      with (Normal (),
            with_frame_callbacks (frame_callbacks p ++ [WindowFade.frame_of c]) p)
      by (by destruct c).
    rewrite IH; cbn. by rewrite <- app_assoc.
Qed.

(** A display refresh after the calls [cs ++ [c]] ends with the callback of
    [c]. *)
Lemma bare_calls_then_frame (cs : list fade_call) (c : fade_call) (p : page) (h : handle) :
  div p = Some h → h < length (nodes p) →
  toggle_style (run_animation_frame (Fade.perform_all (cs ++ [c]) p).2) =
    Some (match c with
          | CallFadeIn => "opacity:0.999"
          | CallFadeOut => "opacity:0.1"
          end).
Proof.
  intros Hd Hlt. rewrite bare_perform_all. unfold run_animation_frame; cbn.
  rewrite fmap_app, app_assoc; cbn.
  apply (last_frame_wins _ _ _ _ h); [done | done |].
  intros q. apply bare_frame_call.
Qed.

Lemma window_calls_then_frame (cs : list fade_call) (c : fade_call) (p : page) (h : handle) :
  div p = Some h → h < length (nodes p) →
  toggle_style (run_animation_frame (WindowFade.perform_all (cs ++ [c]) p).2) =
    Some (match c with
          | CallFadeIn => "opacity: 0.999"
          | CallFadeOut => "opacity: 0.1"
          end).
Proof.
  intros Hd Hlt. rewrite window_perform_all. unfold run_animation_frame; cbn.
  rewrite fmap_app, app_assoc; cbn.
  apply (last_frame_wins _ _ _ _ h); [done | done |].
  intros q. apply window_frame_call.
Qed.

Lemma opacity_after (p : page) (s : string) (o : Q) :
  toggle_style p = Some s → opacity_of_style s = Some o → toggle_opacity p = Some o.
Proof. intros Hs Ho. unfold toggle_opacity. by rewrite Hs. Qed.

(** C4: whatever the Toggle Target's style was, [fade_in] followed by one
    display refresh leaves its opacity at 0.999, and [fade_out] followed by
    one display refresh leaves it at 0.1. *)
Theorem fade_then_refresh_sets_opacity (p : page) (h : handle) :
  div p = Some h → h < length (nodes p) →
  toggle_opacity (run_animation_frame (Fade.fade_in p).2) = Some (999 # 1000)%Q ∧
  toggle_opacity (run_animation_frame (Fade.fade_out p).2) = Some (1 # 10)%Q.
Proof.
  intros Hd Hlt. split.
  - apply (opacity_after _ "opacity:0.999"); [|reflexivity].
    apply (last_frame_wins (frame_callbacks p) fn_fade_in_frame _ _ h); done.
  - apply (opacity_after _ "opacity:0.1"); [|reflexivity].
    apply (last_frame_wins (frame_callbacks p) fn_fade_out_frame _ _ h); done.
Qed.

Lemma fade_then_refresh_sets_opacity_witness :
  toggle_opacity (run_animation_frame (Fade.fade_in fade_page).2)
    = Some (999 # 1000)%Q ∧
  toggle_opacity (run_animation_frame (Fade.fade_out fade_page).2)
    = Some (1 # 10)%Q.
Proof.
  apply (fade_then_refresh_sets_opacity fade_page 0); [reflexivity | simpl; lia].
Defined.

(** C5: neither [fade_in] nor [fade_out] touches the Toggle Target when it is
    called: on return the elements, and so the opacity, are as before and the
    call has only added its callback to those of the next display refresh;
    the style is written when that callback runs. *)
Theorem fade_call_defers_mutation (p : page) (h : handle) (c : fade_call) :
  div p = Some h → h < length (nodes p) →
  let q := (Fade.perform c p).2 in
  (Fade.perform c p).1 = Normal () ∧
  nodes q = nodes p ∧
  toggle_opacity q = toggle_opacity p ∧
  frame_callbacks q = frame_callbacks p ++ [Fade.frame_of c] ∧
  toggle_opacity (settle (call (Fade.frame_of c) None q)) = Some (opacity_for c).
Proof.
  intros Hd Hlt q.
  assert (Fade.perform c p
          = (Normal (), with_frame_callbacks (frame_callbacks p ++ [Fade.frame_of c]) p))
    as Hcall by (by destruct c).
  subst q. rewrite Hcall; cbn [fst snd].
  repeat split.
  rewrite bare_frame_call.
  destruct c.
  - apply (opacity_after _ "opacity:0.999"); [|reflexivity].
    by apply (toggle_style_written _ h).
  - apply (opacity_after _ "opacity:0.1"); [|reflexivity].
    by apply (toggle_style_written _ h).
Qed.

Lemma fade_call_defers_mutation_witness :
  let q := (Fade.perform CallFadeOut fade_page).2 in
  (Fade.perform CallFadeOut fade_page).1 = Normal () ∧
  nodes q = nodes fade_page ∧
  toggle_opacity q = toggle_opacity fade_page ∧
  frame_callbacks q = frame_callbacks fade_page ++ [Fade.frame_of CallFadeOut] ∧
  toggle_opacity (settle (call (Fade.frame_of CallFadeOut) None q))
    = Some (opacity_for CallFadeOut).
Proof.
  apply (fade_call_defers_mutation fade_page 0 CallFadeOut);
    [reflexivity | simpl; lia].
Defined.

(** C6: of any run of [fade_in] and [fade_out] calls made before one display
    refresh, every call adds its own callback to those of the refresh, in call
    order and with none dropped, no call touches the elements, and after the
    refresh the Toggle Target's opacity is the one the last call asks for. *)
Theorem rapid_calls_last_wins (p : page) (h : handle)
    (cs : list fade_call) (c : fade_call) :
  div p = Some h → h < length (nodes p) →
  let q := (Fade.perform_all (cs ++ [c]) p).2 in
  frame_callbacks q = frame_callbacks p ++ (Fade.frame_of <$> cs ++ [c]) ∧
  nodes q = nodes p ∧
  toggle_opacity (run_animation_frame q) = Some (opacity_for c).
Proof.
  intros Hd Hlt q. subst q. split; [|split].
  - by rewrite bare_perform_all.
  - by rewrite bare_perform_all.
  - pose proof (bare_calls_then_frame cs c p h Hd Hlt) as Hstyle.
    destruct c; by apply (opacity_after _ _ _ Hstyle).
Qed.

Lemma rapid_calls_last_wins_witness :
  let q := (Fade.perform_all ([CallFadeIn; CallFadeOut; CallFadeOut] ++ [CallFadeIn])
              fade_page).2 in
  frame_callbacks q
    = frame_callbacks fade_page
      ++ (Fade.frame_of <$> [CallFadeIn; CallFadeOut; CallFadeOut] ++ [CallFadeIn]) ∧
  nodes q = nodes fade_page ∧
  toggle_opacity (run_animation_frame q) = Some (opacity_for CallFadeIn).
Proof.
  apply (rapid_calls_last_wins fade_page 0); [reflexivity | simpl; lia].
Defined.

(** The two variants do not write the same style text. *)
Example fade_variants_style_text :
  toggle_style (run_animation_frame (Fade.fade_in fade_page).2) = Some "opacity:0.999" ∧
  toggle_style (run_animation_frame (WindowFade.fade_in fade_page).2)
    = Some "opacity: 0.999".
Proof. split; reflexivity. Qed.

(** C9: the bare and the [window]-qualified fade scripts agree on the opacity
    of the Toggle Target: after the same calls and a display refresh both
    leave the same opacity, and where there is a Toggle Target it is the one
    the last call asks for, 0.999 for [fade_in] and 0.1 for [fade_out]. *)
Theorem fade_variants_agree (p : page) (cs : list fade_call) :
  toggle_opacity (run_animation_frame (Fade.perform_all cs p).2)
    = toggle_opacity (run_animation_frame (WindowFade.perform_all cs p).2) ∧
  ∀ (h : handle) (cs' : list fade_call) (c : fade_call),
    div p = Some h → h < length (nodes p) → cs = cs' ++ [c] →
    toggle_opacity (run_animation_frame (WindowFade.perform_all cs p).2)
      = Some (opacity_for c).
Proof.
  assert (∀ (h : handle) (cs' : list fade_call) (c : fade_call),
            div p = Some h → h < length (nodes p) →
            toggle_opacity (run_animation_frame (Fade.perform_all (cs' ++ [c]) p).2)
              = Some (opacity_for c) ∧
            toggle_opacity (run_animation_frame (WindowFade.perform_all (cs' ++ [c]) p).2)
              = Some (opacity_for c)) as Hboth.
  { intros h cs' c Hd Hlt.
    pose proof (bare_calls_then_frame cs' c p h Hd Hlt) as Hb.
    pose proof (window_calls_then_frame cs' c p h Hd Hlt) as Hw.
    destruct c; split; by eapply opacity_after. }
  assert ((∀ h, div p = Some h → length (nodes p) ≤ h) →
          ∀ fs, toggle_opacity (run_callbacks fs None (with_frame_callbacks [] p)) = None)
    as Hmissing.
  { intros Hno fs. unfold toggle_opacity. rewrite toggle_style_missing; [done|].
    destruct (run_callbacks_preserves fs None (with_frame_callbacks [] p))
      as (-> & _ & ->).
    exact Hno. }
  split.
  - destruct (div p) as [h|] eqn:Hd;
      [destruct (decide (h < length (nodes p))) as [Hlt|Hge]|].
    + destruct cs as [|c cs' _] using rev_ind; [done|].
      by destruct (Hboth h cs' c eq_refl Hlt) as [-> ->].
    + rewrite bare_perform_all, window_perform_all. unfold run_animation_frame.
      rewrite !Hmissing; [done | |]; intros h' [= <-]; lia.
    + rewrite bare_perform_all, window_perform_all. unfold run_animation_frame.
      by rewrite !Hmissing.
  - intros h cs' c Hd Hlt ->. by destruct (Hboth h cs' c Hd Hlt).
Qed.

Lemma fade_variants_agree_witness :
  toggle_opacity
    (run_animation_frame (Fade.perform_all [CallFadeOut; CallFadeIn] fade_page).2)
    = toggle_opacity
        (run_animation_frame
           (WindowFade.perform_all [CallFadeOut; CallFadeIn] fade_page).2) ∧
  toggle_opacity
    (run_animation_frame (WindowFade.perform_all [CallFadeOut; CallFadeIn] fade_page).2)
    = Some (opacity_for CallFadeIn).
Proof.
  destruct (fade_variants_agree fade_page [CallFadeOut; CallFadeIn]) as [Hsame Hlast].
  split; [exact Hsame|].
  apply (Hlast 0 [CallFadeOut] CallFadeIn); [reflexivity | simpl; lia | reflexivity].
Defined.

(** ** Initialization *)

Lemma elem_of_select_from (sel : string) (ns : list node) (from t : handle) :
  t ∈ select_from from sel ns ↔
  ∃ n, from ≤ t ∧ ns !! (t - from) = Some n ∧ tagName n = sel.
Proof.
  revert from. induction ns as [|m ns IH]; intros from; cbn.
  - split; [by intros ?%elem_of_nil | by intros (n & _ & ? & _)].
  - assert (t ∈ select_from (S from) sel ns ↔
            ∃ n, from < t ∧ (m :: ns) !! (t - from) = Some n ∧ tagName n = sel)
      as Htail.
    { rewrite IH. split; intros (n & Hle & Hn & Ht); exists n.
      - split; [lia|]. split; [|done].
        by replace (t - from) with (S (t - S from)) by lia.
      - split; [lia|]. split; [|done].
        by replace (t - from) with (S (t - S from)) in Hn by lia. }
    assert (t = from → (m :: ns) !! (t - from) = Some m) as Hhead.
    { intros ->. by rewrite Nat.sub_diag. }
    destruct (decide (tagName m = sel)) as [Hm|Hm].
    + rewrite elem_of_cons, Htail. split.
      * intros [->|(n & ? & ? & ?)]; [|exists n; split; [lia|done]].
        exists m. by rewrite Nat.sub_diag.
      * intros (n & Hle & Hn & Ht).
        destruct (decide (t = from)) as [|Hne]; [by left|].
        right. exists n. split; [lia|done].
    + rewrite Htail. split.
      * intros (n & ? & ? & ?). exists n. split; [lia|done].
      * intros (n & Hle & Hn & Ht).
        destruct (decide (t = from)) as [Heq|Hne].
        -- rewrite (Hhead Heq) in Hn. congruence.
        -- exists n. split; [lia|done].
Qed.

Lemma select_from_valid (sel : string) (ns : list node) (i t : nat) :
  select_from 0 sel ns !! i = Some t → t < length ns.
Proof.
  intros Hi. apply list_elem_of_lookup_2, elem_of_select_from in Hi
    as (n & _ & Hn & _).
  apply lookup_lt_Some in Hn. lia.
Qed.

Lemma select_from_length (sel : string) (doc : list element) (from : handle) :
  length (select_from from sel (nodes (load doc))) = elements_with sel doc.
Proof.
  unfold elements_with, load; cbn [nodes]. revert from.
  induction doc as [|e doc IH]; intros from; [done|].
  rewrite filter_cons, fmap_cons. cbn [select_from tagName node_of].
  destruct (decide (tag e = sel)); cbn [length]; by rewrite IH.
Qed.

(** A listener loop over a list of handles, as a fold over the store. *)
Lemma listener_loop (inputs : list handle) (type : string) (f : function)
    (count i : nat) (p : page) :
  i + count ≤ length inputs →
  for_loop count i (λ j, addEventListener (inputs !! j) type f) p =
    (Normal (),
     with_nodes (foldl (λ ns h, alter (add_listener type f) h ns) (nodes p)
                       (take count (drop i inputs))) p).
Proof.
  revert i p. induction count as [|count IH]; intros i p Hle; cbn.
  - by destruct p.
  - destruct (lookup_lt_is_Some_2 inputs i ltac:(lia)) as [h Hh].
    unfold mbind, js_bind. rewrite Hh; cbn.
    rewrite IH by lia; cbn.
    by rewrite (drop_S _ _ _ Hh).
Qed.

Lemma foldl_alter_lookup (g : node → node) (hs : list handle) (ns : list node)
    (t : handle) :
  (∀ n, g (g n) = g n) →
  foldl (λ ns h, alter g h ns) ns hs !! t
    = if decide (t ∈ hs) then g <$> ns !! t else ns !! t.
Proof.
  intros Hg. revert ns. induction hs as [|h hs IH]; intros ns; cbn.
  - by rewrite decide_False by apply not_elem_of_nil.
  - rewrite IH. destruct (decide (h = t)) as [->|Hne].
    + rewrite list_lookup_alter_eq, (decide_True _ _ (list_elem_of_here t hs)).
      destruct (ns !! t) as [n|]; cbn; [|by case_decide].
      rewrite Hg. by case_decide.
    + rewrite list_lookup_alter_ne by done.
      destruct (decide (t ∈ hs)) as [Hin|Hout].
      * by rewrite decide_True by (by right).
      * rewrite decide_False; [done|]. rewrite elem_of_cons. intros [Heq|Hin]; auto.
Qed.

Lemma foldl_alter_length (g : node → node) (hs : list handle) (ns : list node) :
  length (foldl (λ ns h, alter g h ns) ns hs) = length ns.
Proof.
  revert ns. induction hs as [|h hs IH]; intros ns; cbn; [done|].
  by rewrite IH, length_alter.
Qed.

Lemma add_listener_twice (type : string) (f : function) (n : node) :
  add_listener type f (add_listener type f n) = add_listener type f n.
Proof.
  unfold add_listener at 2 3. destruct (decide ((type, f) ∈ listeners n)) as [Hin|Hout].
  - unfold add_listener. by rewrite decide_True.
  - unfold add_listener; cbn. rewrite decide_True; [done|].
    apply elem_of_app. right. apply list_elem_of_here.
Qed.

(** The page comment.js leaves behind. *)
Lemma comment_js_run (p : page) :
  let inputs := select_from 0 "input" (nodes p) in
  comment_js p =
    (Normal (),
     with_nodes (foldl (λ ns h, alter (add_listener "keydown" fn_lengthCheck) h ns)
                       (nodes p) inputs)
                (with_strong (select_from 0 "strong" (nodes p) !! 0) p)).
Proof.
  cbn zeta. unfold comment_js, mbind, js_bind; cbn.
  rewrite listener_loop by (cbn; lia); cbn.
  by rewrite firstn_all.
Qed.

Lemma comment_js_wired (doc : list element) :
  wired (comment_js (load doc)).2.
Proof.
  rewrite comment_js_run. intros t n.
  change (foldl (λ ns h, alter (add_listener "keydown" fn_lengthCheck) h ns)
            (node_of <$> doc) (select_from 0 "input" (node_of <$> doc)) !! t = Some n
          → listeners_for "keydown" n
            = if decide (tagName n = "input") then [fn_lengthCheck] else []).
  rewrite foldl_alter_lookup by apply add_listener_twice.
  rewrite list_lookup_fmap.
  destruct (doc !! t) as [e|] eqn:He; cbn; [|by case_decide].
  assert (add_listener "keydown" fn_lengthCheck (node_of e)
          = Node (tag e) (attrs e) (content e) [("keydown", fn_lengthCheck)]) as Hadd.
  { unfold add_listener. by rewrite decide_False by apply not_elem_of_nil. }
  destruct (decide (t ∈ _)) as [Hin|Hout]; cbn; intros [= <-].
  - rewrite Hadd. cbn [tagName].
    apply elem_of_select_from in Hin as (n & _ & Hn & Htag).
    rewrite Nat.sub_0_r, list_lookup_fmap, He in Hn. cbn in Hn.
    injection Hn as <-. cbn in Htag. by rewrite decide_True.
  - cbn. destruct (decide (tag e = "input")) as [Htag|Htag]; [|done].
    exfalso. apply Hout, elem_of_select_from.
    exists (node_of e). split; [lia|]. by rewrite Nat.sub_0_r, list_lookup_fmap, He.
Qed.

Lemma select_from_alter (g : node → node) (sel : string) (ns : list node)
    (from h : handle) :
  (∀ n, tagName (g n) = tagName n) →
  select_from from sel (alter g h ns) = select_from from sel ns.
Proof.
  intros Hg. revert from h.
  induction ns as [|n ns IH]; intros from [|h]; cbn; [done | done | |].
  - by rewrite Hg.
  - by rewrite IH.
Qed.

Lemma add_listener_tagName (type : string) (f : function) (n : node) :
  tagName (add_listener type f n) = tagName n.
Proof. unfold add_listener. by case_decide. Qed.

(** How the top level of each fade script ends. *)
Lemma bare_script_completion (p : page) :
  (Fade.script p).1 =
    match select_from 0 "button" (nodes p) with
    | _ :: _ :: _ => Normal ()
    | _ => Throw TypeError
    end.
Proof.
  unfold Fade.script, mbind, js_bind, querySelectorAll, read, update.
  cbn [nodes with_div].
  destruct (select_from 0 "button" (nodes p)) as [|b0 bs] eqn:Hb; [done|].
  cbn [lookup list_lookup addEventListener update with_nodes with_div nodes].
  rewrite select_from_alter, Hb by apply add_listener_tagName.
  by destruct bs.
Qed.

Lemma window_script_completion (p : page) :
  (WindowFade.script p).1 =
    match select_from 0 "button" (nodes p) with
    | _ :: _ :: _ => Normal ()
    | _ => Throw TypeError
    end.
Proof.
  unfold WindowFade.script, mbind, js_bind, querySelectorAll, read, update.
  cbn [nodes with_div].
  destruct (select_from 0 "button" (nodes p)) as [|b0 bs] eqn:Hb; [done|].
  cbn [lookup list_lookup addEventListener update with_nodes with_div nodes].
  rewrite select_from_alter, Hb by apply add_listener_tagName.
  by destruct bs.
Qed.


(** C7 fails on a document with no element at all, where comment.js completes
    and leaves the page as it was, and on a document with the two buttons and
    no toggle target, where the fade script completes too, with [div] left
    [undefined]. *)
Lemma initialization_silent_counterexample :
  elements_with "strong" [] = 0 ∧ elements_with "input" [] = 0 ∧
  comment_js (load []) = (Normal (), load []) ∧
  elements_with "div" buttons_only = 0 ∧
  (Fade.script (load buttons_only)).1 = Normal () ∧
  div (Fade.script (load buttons_only)).2 = None.
Proof. repeat split. Qed.

(** C7, amended: initialization reports no configuration error.  comment.js
    completes normally on every document, with or without a Feedback Element
    and Watched Elements; each fade script completes normally with or without
    a Toggle Target as long as the document has two buttons, and ends in a
    TypeError when it has fewer. *)
Theorem initialization_completion (doc : list element) :
  (comment_js (load doc)).1 = Normal () ∧
  (Fade.script (load doc)).1
    = (if decide (2 ≤ elements_with "button" doc) then Normal () else Throw TypeError) ∧
  (WindowFade.script (load doc)).1
    = (if decide (2 ≤ elements_with "button" doc) then Normal () else Throw TypeError).
Proof.
  split; [by rewrite comment_js_run|].
  rewrite bare_script_completion, window_script_completion.
  rewrite <- (select_from_length "button" doc 0).
  destruct (select_from 0 "button" (nodes (load doc))) as [|b0 [|b1 bs]]; cbn [length].
  - by rewrite decide_False by lia.
  - by rewrite decide_False by lia.
  - by rewrite decide_True by lia.
Qed.

(** ** Keystrokes *)

Lemma wired_ext (p q : page) :
  (∀ i, tagName <$> nodes q !! i = tagName <$> nodes p !! i) →
  (∀ i, listeners <$> nodes q !! i = listeners <$> nodes p !! i) →
  wired p → wired q.
Proof.
  intros Htag Hlis Hp t n Hn.
  specialize (Htag t). specialize (Hlis t). rewrite Hn in Htag, Hlis.
  destruct (nodes p !! t) as [m|] eqn:Hm; [|done].
  injection Htag as Htag. injection Hlis as Hlis.
  specialize (Hp t m Hm). unfold listeners_for in *. by rewrite Htag, Hlis.
Qed.

Lemma overlong_ext (p q : page) (t : handle) :
  (∀ i, tagName <$> nodes q !! i = tagName <$> nodes p !! i) →
  (∀ i, attributes <$> nodes q !! i = attributes <$> nodes p !! i) →
  overlong q t = overlong p t.
Proof.
  intros Htag Hattr. specialize (Htag t). specialize (Hattr t).
  unfold overlong.
  destruct (nodes q !! t) as [n|], (nodes p !! t) as [m|]; try done.
  injection Htag as Htag. injection Hattr as Hattr. by rewrite Htag, Hattr.
Qed.

Lemma existsb_pointwise {A : Type} (f g : A → bool) (l : list A) :
  (∀ x, f x = g x) → existsb f l = existsb g l.
Proof. intros Hfg. induction l as [|x l IH]; cbn; [done|]. by rewrite Hfg, IH. Qed.

(** One keystroke on a wired page with a Feedback Element. *)
Lemma keydown_step (p : page) (h t : handle) :
  wired p → strong p = Some h → h < length (nodes p) →
  let q := keydown t p in
  (∀ i, tagName <$> nodes q !! i = tagName <$> nodes p !! i) ∧
  (∀ i, attributes <$> nodes q !! i = attributes <$> nodes p !! i) ∧
  (∀ i, listeners <$> nodes q !! i = listeners <$> nodes p !! i) ∧
  length (nodes q) = length (nodes p) ∧ strong q = strong p ∧
  feedback_content q = if overlong p t then Some warning else feedback_content p.
Proof.
  intros Hw Hs Hlt. cbn zeta. unfold keydown, dispatch, overlong.
  destruct (nodes p !! t) as [n|] eqn:Hn; [|done].
  rewrite (Hw t n Hn).
  destruct (decide (tagName n = "input")) as [Htag|Htag];
    [rewrite bool_decide_eq_true_2 by done
    |rewrite bool_decide_eq_false_2 by done; done].
  cbn [run_callbacks call andb].
  destruct (lengthCheck_frame_nodes t p) as (_ & Ht & Ha & Hl & Hlen & Hst & _).
  destruct (settle_fields (lengthCheck t p)) as (Hnodes & Hstrong & _).
  rewrite Hnodes, Hstrong. repeat split; try done.
  rewrite lengthCheck_unfold.
  replace (attribute_of p t "value") with (attributes n !! "value")
    by (unfold attribute_of; by rewrite Hn).
  destruct (attributes n !! "value") as [s|]; [|done].
  destruct (10 <? String.length s); [|done].
  rewrite Hs. by apply feedback_content_written.
Qed.

Lemma keystrokes_content_wired (ts : list handle) (p : page) (h : handle) :
  wired p → strong p = Some h → h < length (nodes p) →
  feedback_content (keystrokes ts p)
    = if existsb (overlong p) ts then Some warning else feedback_content p.
Proof.
  revert p. induction ts as [|t ts IH]; intros p Hw Hs Hlt; [done|].
  destruct (keydown_step p h t Hw Hs Hlt) as (Ht & Ha & Hl & Hlen & Hst & Hcontent).
  change (keystrokes (t :: ts) p) with (keystrokes ts (keydown t p)).
  rewrite IH; [|by eapply wired_ext|congruence|lia].
  rewrite (existsb_pointwise (overlong (keydown t p)) (overlong p))
    by (intros x; by apply overlong_ext).
  rewrite Hcontent. cbn [existsb].
  by destruct (overlong p t), (existsb (overlong p) ts).
Qed.

(** C8 fails after a keystroke in the field holding eleven characters and
    then one in the field holding five: the content still shows the warning of
    the earlier event, while the later event by itself leaves the content
    empty. *)
Lemma keystrokes_earlier_warning_counterexample :
  feedback_content (keystrokes [1; 2] comment_page) = Some "Comment too long!" ∧
  feedback_content (keystrokes [2] comment_page) = Some "" ∧
  feedback_content (keystrokes [1; 2] comment_page)
    ≠ feedback_content (keystrokes [2] comment_page).
Proof. split; [reflexivity | split; [reflexivity | discriminate]]. Qed.

(** C8, amended: on the page comment.js has set up, after any sequence of
    keystroke events the Feedback Element's content is the warning text if
    some event of the sequence, the most recent or an earlier one, fired on a
    Watched Element whose value is longer than 10, and is otherwise the
    content from before the sequence. *)
Theorem keystrokes_content (doc : list element) (ts : list handle) (h : handle) :
  strong (comment_js (load doc)).2 = Some h →
  let p := (comment_js (load doc)).2 in
  feedback_content (keystrokes ts p)
    = if existsb (overlong p) ts then Some "Comment too long!"
      else feedback_content p.
Proof.
  intros Hs p. apply (keystrokes_content_wired ts p h).
  - apply comment_js_wired.
  - exact Hs.
  - subst p. rewrite comment_js_run in Hs |- *. cbn in Hs.
    apply select_from_valid in Hs.
    unfold with_nodes; cbn [snd nodes].
    by rewrite foldl_alter_length.
Qed.

Lemma keystrokes_content_witness :
  let p := (comment_js (load comment_form)).2 in
  feedback_content (keystrokes [2; 1; 3; 2] p)
    = if existsb (overlong p) [2; 1; 3; 2] then Some "Comment too long!"
      else feedback_content p.
Proof. apply (keystrokes_content comment_form [2; 1; 3; 2] 0); reflexivity. Defined.


(** * Further properties of the scripts *)

(** ** The page comment.js sets up *)

Lemma select_from_first (sel : string) (doc : list element) (from : handle) :
  select_from from sel (node_of <$> doc) !! 0
    = (λ x, from + x.1) <$> list_find (λ e, tag e = sel) doc.
Proof.
  revert from. induction doc as [|e doc IH]; intros from; [done|].
  rewrite fmap_cons. cbn [select_from list_find tagName node_of].
  destruct (decide (tag e = sel)) as [He|He]; cbn.
  - by rewrite Nat.add_0_r.
  - rewrite IH. destruct (list_find (λ e, tag e = sel) doc) as [[i x]|]; cbn; [|done].
    f_equal. lia.
Qed.

Lemma wired_nodes (doc : list element) :
  foldl (λ ns h, alter (add_listener "keydown" fn_lengthCheck) h ns)
        (node_of <$> doc) (select_from 0 "input" (node_of <$> doc))
    = wired_node <$> doc.
Proof.
  apply list_eq; intros t.
  rewrite foldl_alter_lookup by apply add_listener_twice.
  rewrite !list_lookup_fmap.
  destruct (doc !! t) as [e|] eqn:He; cbn; [|by case_decide].
  assert (add_listener "keydown" fn_lengthCheck (node_of e)
          = Node (tag e) (attrs e) (content e) [("keydown", fn_lengthCheck)]) as Hadd.
  { unfold add_listener. by rewrite decide_False by apply not_elem_of_nil. }
  unfold wired_node.
  destruct (decide (t ∈ _)) as [Hin|Hout].
  - rewrite Hadd.
    apply elem_of_select_from in Hin as (n & _ & Hn & Htag).
    rewrite Nat.sub_0_r, list_lookup_fmap, He in Hn. cbn in Hn.
    injection Hn as <-. cbn in Htag. by rewrite decide_True.
  - destruct (decide (tag e = "input")) as [Htag|Htag]; [|done].
    exfalso. apply Hout, elem_of_select_from.
    exists (node_of e). split; [lia|]. by rewrite Nat.sub_0_r, list_lookup_fmap, He.
Qed.

(** X1: on a freshly loaded document comment.js always completes and leaves
    exactly this page: every element keeps its tag, attributes and content,
    each [input] carries the one keydown listener [lengthCheck] and no other
    element carries a listener, and [strong] holds the first [strong] element
    in document order, [undefined] when there is none. *)
Theorem comment_js_page (doc : list element) :
  comment_js (load doc)
    = (Normal (),
       Page (wired_node <$> doc)
            ((λ x, x.1) <$> list_find (λ e, tag e = "strong") doc)
            None [] []).
Proof.
  rewrite comment_js_run. unfold with_nodes, with_strong, load.
  cbn [nodes strong div frame_callbacks reported].
  by rewrite wired_nodes, select_from_first.
Qed.

(** ** Keystrokes, through the event loop *)

(** One keystroke on a wired page, in full. *)
Lemma keydown_wired (p : page) (t : handle) :
  wired p →
  keydown t p =
    if valueless p t then with_reported (reported p ++ [TypeError]) p
    else if overlong p t then settle (set_innerHTML (strong p) warning p)
    else p.
Proof.
  intros Hw. unfold keydown, dispatch, valueless, overlong.
  destruct (nodes p !! t) as [n|] eqn:Hn; [|done].
  rewrite (Hw t n Hn).
  destruct (decide (tagName n = "input")) as [Htag|Htag];
    [rewrite bool_decide_eq_true_2 by done
    |rewrite bool_decide_eq_false_2 by done; done].
  cbn [run_callbacks call andb]. rewrite lengthCheck_unfold.
  replace (attribute_of p t "value") with (attributes n !! "value")
    by (unfold attribute_of; by rewrite Hn).
  destruct (attributes n !! "value") as [s|].
  - rewrite bool_decide_eq_false_2 by done. by destruct (10 <? String.length s).
  - by rewrite bool_decide_eq_true_2.
Qed.

Lemma valueless_not_overlong (p : page) (t : handle) :
  valueless p t = true → overlong p t = false.
Proof.
  unfold valueless, overlong. destruct (nodes p !! t) as [n|]; [|done].
  destruct (bool_decide (tagName n = "input")); [|done]. cbn.
  intros Hv%bool_decide_eq_true_1. by rewrite Hv.
Qed.

Lemma wired_same_nodes (p q : page) : nodes q = nodes p → wired p → wired q.
Proof. intros Hn Hw t n. rewrite Hn. apply Hw. Qed.

Lemma wired_written (p : page) (s : string) (h : handle) :
  wired p → wired (with_nodes (alter (with_innerHTML s) h (nodes p)) p).
Proof.
  intros Hw.
  destruct (set_innerHTML_frame (Some h) s p) as (_ & Ht & _ & Hl & _).
  by apply (wired_ext p).
Qed.

Lemma alter_written_twice (s : string) (h : handle) (ns : list node) :
  alter (with_innerHTML s) h (alter (with_innerHTML s) h ns)
    = alter (with_innerHTML s) h ns.
Proof. rewrite list_alter_alter_eq. by apply list_alter_ext. Qed.

(** The page after a sequence of keystrokes, when there is a Feedback
    Element. *)
Lemma keystrokes_page (ts : list handle) (p : page) (h : handle) :
  wired p → strong p = Some h →
  keystrokes ts p =
    Page (if existsb (overlong p) ts
          then alter (with_innerHTML warning) h (nodes p) else nodes p)
         (strong p) (div p) (frame_callbacks p)
         (reported p ++ replicate (length (List.filter (valueless p) ts)) TypeError).
Proof.
  intros Hw Hs. induction ts as [|t ts IH] using rev_ind.
  - cbn. rewrite app_nil_r. by destruct p.
  - unfold keystrokes in *. rewrite foldl_snoc, IH. clear IH.
    set (q := Page _ _ _ _ _).
    assert (wired q) as Hq.
    { destruct (existsb (overlong p) ts).
      - by apply (wired_written p warning h).
      - by apply (wired_same_nodes p). }
    assert (∀ i, tagName <$> nodes q !! i = tagName <$> nodes p !! i) as Htag.
    { intros i. subst q. cbn [nodes]. destruct (existsb (overlong p) ts); [|done].
      by destruct (set_innerHTML_frame (Some h) warning p) as (_ & Ht & _). }
    assert (∀ i, attributes <$> nodes q !! i = attributes <$> nodes p !! i) as Hattr.
    { intros i. subst q. cbn [nodes]. destruct (existsb (overlong p) ts); [|done].
      by destruct (set_innerHTML_frame (Some h) warning p) as (_ & _ & Ha & _). }
    assert (valueless q t = valueless p t) as Hv.
    { unfold valueless. specialize (Htag t). specialize (Hattr t). revert Htag Hattr.
      destruct (nodes q !! t) as [n|], (nodes p !! t) as [m|]; intros; simplify_eq/=;
        try done.
      by rewrite Htag, Hattr. }
    rewrite (keydown_wired q t Hq), Hv, (overlong_ext p q t Htag Hattr).
    rewrite existsb_app, List.filter_app, length_app. cbn [existsb List.filter].
    rewrite orb_false_r.
    destruct (valueless p t) eqn:Hvp.
    + rewrite (valueless_not_overlong p t Hvp), orb_false_r. subst q. cbn.
      by rewrite Nat.add_1_r, replicate_S_end, app_assoc.
    + rewrite Nat.add_0_r. destruct (overlong p t).
      * rewrite orb_true_r. subst q. cbn. rewrite Hs. cbn.
        destruct (existsb (overlong p) ts); [|done].
        by rewrite alter_written_twice.
      * by rewrite orb_false_r.
Qed.

(** The page after a sequence of keystrokes, when there is no Feedback
    Element. *)
Lemma keystrokes_page_no_feedback (ts : list handle) (p : page) :
  wired p → strong p = None →
  keystrokes ts p =
    with_reported
      (reported p
       ++ replicate (length (List.filter (λ t, valueless p t || overlong p t) ts))
                    TypeError) p.
Proof.
  intros Hw Hs. induction ts as [|t ts IH] using rev_ind.
  - cbn. rewrite app_nil_r. by destruct p.
  - unfold keystrokes in *. rewrite foldl_snoc, IH. clear IH.
    set (q := with_reported _ p).
    assert (wired q) as Hq by (by apply (wired_same_nodes p)).
    rewrite (keydown_wired q t Hq).
    change (valueless q t) with (valueless p t).
    change (overlong q t) with (overlong p t).
    rewrite List.filter_app, length_app. cbn [List.filter].
    destruct (valueless p t) eqn:Hvp; cbn [orb].
    + subst q. cbn. by rewrite Nat.add_1_r, replicate_S_end, app_assoc.
    + destruct (overlong p t); cbn [length].
      * subst q. cbn. rewrite Hs. cbn.
        by rewrite Nat.add_1_r, replicate_S_end, app_assoc.
      * by rewrite Nat.add_0_r.
Qed.

Lemma comment_js_strong (doc : list element) :
  strong (comment_js (load doc)).2 = select_from 0 "strong" (nodes (load doc)) !! 0.
Proof. by rewrite comment_js_run. Qed.


Lemma comment_js_rest (doc : list element) :
  let p := (comment_js (load doc)).2 in
  div p = None ∧ frame_callbacks p = [] ∧ reported p = [].
Proof. by rewrite comment_js_run. Qed.



(** X3: on the page comment.js has set up with a Feedback Element, the event
    loop reports exactly one TypeError for each keystroke in a field without a
    [value] attribute, and none for any other keystroke; the loop goes on
    after each of them. *)
Theorem keystrokes_reported (doc : list element) (ts : list handle) (h : handle) :
  strong (comment_js (load doc)).2 = Some h →
  let p := (comment_js (load doc)).2 in
  reported (keystrokes ts p)
    = replicate (length (List.filter (valueless p) ts)) TypeError.
Proof.
  intros Hs p.
  rewrite (keystrokes_page ts p h (comment_js_wired doc) Hs). cbn [reported].
  subst p. by destruct (comment_js_rest doc) as (_ & _ & ->).
Qed.

Lemma keystrokes_reported_witness :
  let p := (comment_js (load comment_form)).2 in
  reported (keystrokes [3; 1; 3; 2] p)
    = replicate (length (List.filter (valueless p) [3; 1; 3; 2])) TypeError.
Proof. apply (keystrokes_reported comment_form [3; 1; 3; 2] 0). reflexivity. Defined.

(** X4: on a document with no [strong] element comment.js leaves [strong]
    [undefined], and then no keystroke ever changes an element: a keystroke
    in an overlong field ends in a TypeError at the content write, as does
    one in a field without a [value] attribute, and the event loop reports
    each of them. *)
Theorem keystrokes_without_feedback (doc : list element) (ts : list handle) :
  elements_with "strong" doc = 0 →
  let p := (comment_js (load doc)).2 in
  strong p = None ∧
  keystrokes ts p =
    with_reported
      (replicate (length (List.filter (λ t, valueless p t || overlong p t) ts))
                 TypeError) p.
Proof.
  intros Hnone p.
  assert (strong p = None) as Hs.
  { subst p. rewrite comment_js_strong.
    pose proof (select_from_length "strong" doc 0) as Hlen. rewrite Hnone in Hlen.
    by destruct (select_from 0 "strong" (nodes (load doc))). }
  split; [done|].
  rewrite (keystrokes_page_no_feedback ts p (comment_js_wired doc) Hs).
  subst p. by destruct (comment_js_rest doc) as (_ & _ & ->).
Qed.

Lemma keystrokes_without_feedback_witness :
  let p := (comment_js (load bare_form)).2 in
  strong p = None ∧
  keystrokes [0; 1; 2; 0] p =
    with_reported
      (replicate
         (length (List.filter (λ t, valueless p t || overlong p t) [0; 1; 2; 0]))
         TypeError) p.
Proof. apply (keystrokes_without_feedback bare_form [0; 1; 2; 0]). reflexivity. Defined.

(** ** Display refreshes *)

Lemma restyle_twice (s s' : string) (h : handle) (ns : list node) :
  alter (with_attribute "style" s) h (alter (with_attribute "style" s') h ns)
    = alter (with_attribute "style" s) h ns.
Proof.
  rewrite list_alter_alter_eq. apply list_alter_ext; [|done].
  intros n _. unfold with_attribute; cbn. by rewrite insert_insert_eq.
Qed.

(** A run of style-writing callbacks on a page with a toggle target: the last
    one decides the style, nothing else changes. *)
Lemma frames_run (style : fade_call → string) (frame : fade_call → function)
    (cs : list fade_call) (p : page) (h : handle) :
  (∀ c q, call (frame c) None q = set_style (div q) (style c) q) →
  div p = Some h →
  run_callbacks (frame <$> cs) None p =
    match last cs with
    | Some c => with_nodes (alter (with_attribute "style" (style c)) h (nodes p)) p
    | None => p
    end.
Proof.
  intros Hcall Hd. induction cs as [|c cs IH] using rev_ind; [done|].
  rewrite fmap_app, run_callbacks_app, IH, last_snoc. cbn [fmap list_fmap run_callbacks].
  rewrite Hcall. destruct (last cs) as [c'|]; cbn [div with_nodes]; rewrite Hd; cbn.
  - unfold with_nodes; cbn. by rewrite restyle_twice.
  - done.
Qed.

(** The same run on a page without a toggle target: every callback ends in a
    TypeError at the style write. *)
Lemma frames_run_missing (style : fade_call → string) (frame : fade_call → function)
    (cs : list fade_call) (p : page) :
  (∀ c q, call (frame c) None q = set_style (div q) (style c) q) →
  div p = None →
  run_callbacks (frame <$> cs) None p
    = with_reported (reported p ++ replicate (length cs) TypeError) p.
Proof.
  intros Hcall Hd. induction cs as [|c cs IH] using rev_ind.
  - cbn. rewrite app_nil_r. by destruct p.
  - rewrite fmap_app, run_callbacks_app, IH. cbn [fmap list_fmap run_callbacks].
    rewrite Hcall. cbn [div with_reported]. rewrite Hd. cbn.
    rewrite length_app, Nat.add_1_r, replicate_S_end, app_assoc. done.
Qed.

Lemma bare_frame_style (c : fade_call) (q : page) :
  call (Fade.frame_of c) None q = set_style (div q) (bare_style c) q.
Proof. by destruct c. Qed.


Lemma bare_refresh (cs : list fade_call) (p : page) :
  frame_callbacks p = [] →
  run_animation_frame (Fade.perform_all cs p).2
    = run_callbacks (Fade.frame_of <$> cs) None p.
Proof.
  intros Hf. rewrite bare_perform_all. unfold run_animation_frame.
  cbn [snd frame_callbacks with_frame_callbacks]. rewrite Hf. cbn [app].
  f_equal. rewrite <- Hf at 1. by destruct p.
Qed.






(** X7: the callbacks of the fade scripts do not schedule themselves again:
    after the display refresh that follows any calls nothing is pending, and a
    further refresh leaves the page exactly as it is, with or without a Toggle
    Target. *)
Theorem fade_refresh_once (p : page) (cs : list fade_call) :
  frame_callbacks p = [] →
  let q := run_animation_frame (Fade.perform_all cs p).2 in
  frame_callbacks q = [] ∧ run_animation_frame q = q.
Proof.
  intros Hf q.
  assert (frame_callbacks q = []) as Hq.
  { subst q. rewrite (bare_refresh _ _ Hf). destruct (div p) as [h|] eqn:Hd.
    - rewrite (frames_run bare_style Fade.frame_of _ p h bare_frame_style Hd).
      by destruct (last cs).
    - by rewrite (frames_run_missing bare_style Fade.frame_of _ p bare_frame_style Hd). }
  split; [done|].
  unfold run_animation_frame. rewrite Hq. cbn [run_callbacks].
  rewrite <- Hq at 1. by destruct q.
Qed.

Lemma fade_refresh_once_witness :
  let q := run_animation_frame
             (Fade.perform_all [CallFadeIn; CallFadeOut] fade_page).2 in
  frame_callbacks q = [] ∧ run_animation_frame q = q.
Proof. apply (fade_refresh_once fade_page [CallFadeIn; CallFadeOut]). reflexivity. Defined.

(** X8: without a Toggle Target ([div] is [undefined]) the calls themselves
    still succeed, and at the display refresh each scheduled callback ends in
    a TypeError at the style write: the event loop reports one error per call
    and nothing else on the page changes. *)
Theorem fade_without_target (p : page) (cs : list fade_call) :
  div p = None → frame_callbacks p = [] →
  (Fade.perform_all cs p).1 = Normal () ∧
  run_animation_frame (Fade.perform_all cs p).2
    = with_reported (reported p ++ replicate (length cs) TypeError) p.
Proof.
  intros Hd Hf. split; [by rewrite bare_perform_all|].
  rewrite (bare_refresh _ _ Hf).
  exact (frames_run_missing bare_style Fade.frame_of cs p bare_frame_style Hd).
Qed.

Lemma fade_without_target_witness :
  (Fade.perform_all [CallFadeIn; CallFadeOut; CallFadeIn] no_target_page).1 = Normal () ∧
  run_animation_frame (Fade.perform_all [CallFadeIn; CallFadeOut; CallFadeIn] no_target_page).2
    = with_reported
        (reported no_target_page
         ++ replicate (length [CallFadeIn; CallFadeOut; CallFadeIn]) TypeError)
        no_target_page.
Proof.
  apply (fade_without_target no_target_page [CallFadeIn; CallFadeOut; CallFadeIn]);
    reflexivity.
Defined.

(** ** What a display refresh can change *)








(** ** The buttons the fade scripts wire *)
















